(** * core-js-101, task 05 (objects): Rectangle, the JSON helpers and the
      css selector builder of [src/05-objects-tasks.js].

    The JavaScript objects live in an explicit store (a finite map from
    references to object states); every method is a computation over that
    store which either returns a value or throws.  Method chaining returns
    [this], so a chain threads one reference through the store. *)

From stdpp Require Import gmap strings list fin_maps.
From Stdlib Require Import PrimFloat Ascii.

(** ** JavaScript values thrown by the code

    The source only ever executes [throw new Error(message)].  A method
    call through a reference that denotes no object is JavaScript's
    [TypeError]; the source never produces one on its own objects.
    [JSON.parse] throws a [SyntaxError] on text that is not JSON. *)

Inductive exn : Type :=
  | Error (message : string)
  | TypeError (message : string)
  | SyntaxError (message : string).

Definition message_of (e : exn) : string :=
  match e with
  | Error m => m
  | TypeError m => m
  | SyntaxError m => m
  end.

Inductive outcome (A : Type) : Type :=
  | Ret (a : A)
  | Throw (e : exn).

Arguments Ret {A} a.
Arguments Throw {A} e.

(** ** Computations over a store of type [Σ] *)

Definition M (Σ A : Type) : Type := Σ → outcome A * Σ.

Definition ret {Σ A} (a : A) : M Σ A := λ h, (Ret a, h).

Definition throw {Σ A} (e : exn) : M Σ A := λ h, (Throw e, h).

Definition bind {Σ A B} (m : M Σ A) (k : A → M Σ B) : M Σ B :=
  λ h, match m h with
       | (Ret a, h') => k a h'
       | (Throw e, h') => (Throw e, h')
       end.

Declare Scope js_scope.
Delimit Scope js_scope with js.
Notation "'let!' x ':=' m 'in' k" := (bind m (λ x, k))
  (at level 10, x name, m at level 100, k at level 200) : js_scope.
Notation "m ';;!' k" := (bind m (λ _, k))
  (at level 100, k at level 200, right associativity) : js_scope.

Definition result_of {Σ A} (m : M Σ A) (h : Σ) : outcome A := fst (m h).
Definition store_after {Σ A} (m : M Σ A) (h : Σ) : Σ := snd (m h).

(** References into the store. *)
Abbreviation loc := positive (only parsing).

(** The double-quote character (code 34). *)
Definition dquote : string := String (Ascii.ascii_of_nat 34) EmptyString.

(** * Rectangle *)

(** A JavaScript number is an IEEE 754 binary64 value: a [float].

    The object [Rectangle] returns has two data properties and a method.
    The method is a closure; it takes no argument. *)
Record RectangleObject : Type := mkRectangleObject {
  width : float;
  height : float;
  getArea : unit → float
}.

Definition Rectangle (width height : float) : RectangleObject :=
  let rec :=
    mkRectangleObject width height (λ _, (width * height)%float) in
  rec.

(** The assignments [r.width = x] and [r.height = x] on a rectangle. *)
Inductive assignment : Type :=
  | AssignWidth (x : float)
  | AssignHeight (x : float).

Definition assign (r : RectangleObject) (a : assignment) : RectangleObject :=
  match a with
  | AssignWidth x => mkRectangleObject x (height r) (getArea r)
  | AssignHeight x => mkRectangleObject (width r) x (getArea r)
  end.

(** * The JSON helpers *)

(** The values JSON text denotes.  For an object or an array this is the
    tree of its own enumerable properties. *)
#[local] Unset Elimination Schemes.
Inductive json : Type :=
  | JNull
  | JBool (b : bool)
  | JNumber (n : float)
  | JString (s : string)
  | JArray (items : list json)
  | JObject (members : list (string * json)).
#[local] Set Elimination Schemes.

(** A JavaScript value as the helpers see it: a primitive, or a reference
    to an object of the store. *)
Inductive value : Type :=
  | VPrimitive (j : json)
  | VObject (l : positive).

(** An object of the store: its prototype ([None] is [null]) and its own
    enumerable properties, a [JObject] or a [JArray]. *)
Record object : Type := mkObject {
  prototype : option positive;
  own_properties : json
}.

Definition is_object (j : json) : bool :=
  match j with
  | JArray _ | JObject _ => true
  | _ => false
  end.

Section JSON.

(** The platform: the text [JSON.stringify] writes for a tree of
    properties, the tree [JSON.parse] reads from a text (if it is JSON),
    and the built-in prototypes given to parsed objects and arrays. *)
Context (JSON_stringify_text : json → string).
Context (JSON_parse_text : string → option json).
Context (Object_prototype Array_prototype : positive).

Definition JSON_stringify (v : value) : M (gmap positive object) string :=
  match v with
  | VPrimitive j => ret (JSON_stringify_text j)
  | VObject l =>
      λ h, match h !! l with
           | Some o => (Ret (JSON_stringify_text (own_properties o)), h)
           | None => (Throw (TypeError "Cannot read properties of undefined"), h)
           end
  end.

(** [JSON.parse] builds a new object for an object or array text. *)
Definition JSON_parse (text : string) : M (gmap positive object) value :=
  match JSON_parse_text text with
  | None => throw (SyntaxError "Unexpected token in JSON")
  | Some j =>
      let allocate (o : object) : M (gmap positive object) value :=
        λ h, (Ret (VObject (fresh (dom h))), <[fresh (dom h) := o]> h) in
      match j with
      | JObject _ => allocate (mkObject (Some Object_prototype) j)
      | JArray _ => allocate (mkObject (Some Array_prototype) j)
      | _ => ret (VPrimitive j)
      end
  end.

(** [Object.setPrototypeOf(v, proto)] changes the object [v] denotes and
    returns [v]; a primitive other than [null] is returned as it is. *)
Definition Object_setPrototypeOf (v : value) (proto : option positive)
    : M (gmap positive object) value :=
  match v with
  | VObject l =>
      λ h, match h !! l with
           | Some o => (Ret v, <[l := mkObject proto (own_properties o)]> h)
           | None => (Throw (TypeError "Cannot set properties of undefined"), h)
           end
  | VPrimitive JNull =>
      throw (TypeError "Object.setPrototypeOf called on null or undefined")
  | VPrimitive _ => ret v
  end.

Definition getJSON (obj : value) : M (gmap positive object) string :=
  JSON_stringify obj.

Definition fromJSON (proto : option positive) (json : string)
    : M (gmap positive object) value :=
  (let! objJSON := JSON_parse json in
   Object_setPrototypeOf objJSON proto ;;!
   ret objJSON)%js.

(** A tree of properties is JSON-serializable when the text the platform
    writes for it reads back as the same tree. *)
Definition JSON_serializable (j : json) : Prop :=
  JSON_parse_text (JSON_stringify_text j) = Some j.

End JSON.

(** ** A small instance of the platform

    A printer and a reader of JSON text for trees whose numbers are
    whole, non-negative and below 2^52 and whose strings need no escape;
    the text has no white space.  The printer writes any other number as
    [null], which is what [JSON.stringify] writes for [NaN] and the
    infinities. *)
Module SmallJSON.

Definition dq : ascii := Ascii.ascii_of_nat 34.

Definition digits : list (ascii * float) :=
  [("0"%char, 0%float); ("1"%char, 1%float); ("2"%char, 2%float);
   ("3"%char, 3%float); ("4"%char, 4%float); ("5"%char, 5%float);
   ("6"%char, 6%float); ("7"%char, 7%float); ("8"%char, 8%float);
   ("9"%char, 9%float)].

Definition digit_value (c : ascii) : option float :=
  snd <$> find (λ d, Ascii.eqb c (fst d)) digits.

Definition digit_char (n : float) : option ascii :=
  fst <$> find (λ d, PrimFloat.eqb n (snd d)) digits.

(** The whole part of [n / 10], for [0 <= n < 2^52]. *)
Definition div10 (n : float) : float :=
  let q := (n / 10)%float in
  let r := (q + 4503599627370496 - 4503599627370496)%float in
  if PrimFloat.ltb q r then (r - 1)%float else r.

Fixpoint print_digits (fuel : nat) (n : float) (acc : string)
    : option string :=
  match fuel with
  | 0 => None
  | S fuel' =>
      let q := div10 n in
      match digit_char (n - 10 * q)%float with
      | None => None
      | Some c =>
          if PrimFloat.eqb q 0 then Some (String c acc)
          else print_digits fuel' q (String c acc)
      end
  end.

Definition print_number (n : float) : string :=
  if PrimFloat.leb 0 n && PrimFloat.ltb n 4503599627370496
  then default "null" (print_digits 16 n "")
  else "null".

Fixpoint join (parts : list string) : string :=
  match parts with
  | [] => ""
  | [part] => part
  | part :: parts' => part +:+ "," +:+ join parts'
  end.

Fixpoint print (j : json) : string :=
  match j with
  | JNull => "null"
  | JBool true => "true"
  | JBool false => "false"
  | JNumber n => print_number n
  | JString s => String dq s +:+ String dq ""
  | JArray items => "[" +:+ join (map print items) +:+ "]"
  | JObject members =>
      "{" +:+
      join (map (λ m, String dq (fst m) +:+ String dq ":" +:+ print (snd m))
              members)
      +:+ "}"
  end.

Fixpoint strip (prefix s : list ascii) : option (list ascii) :=
  match prefix, s with
  | [], _ => Some s
  | p :: prefix', c :: s' => if Ascii.eqb p c then strip prefix' s' else None
  | _ :: _, [] => None
  end.

Fixpoint read_string (s : list ascii) : option (string * list ascii) :=
  match s with
  | [] => None
  | c :: rest =>
      if Ascii.eqb c dq then Some ("", rest)
      else '(str, rest') ← read_string rest; Some (String c str, rest')
  end.

Fixpoint read_digits (acc : float) (s : list ascii) : float * list ascii :=
  match s with
  | c :: rest =>
      match digit_value c with
      | Some d => read_digits (acc * 10 + d)%float rest
      | None => (acc, s)
      end
  | [] => (acc, s)
  end.

Definition starts (c : ascii) (s : list ascii) : option (list ascii) :=
  strip [c] s.

Fixpoint read_value (fuel : nat) (s : list ascii)
    : option (json * list ascii) :=
  match fuel with
  | 0 => None
  | S fuel' =>
      match s with
      | [] => None
      | c :: rest =>
          if Ascii.eqb c "n" then
            rest' ← strip (String.list_ascii_of_string "ull") rest; Some (JNull, rest')
          else if Ascii.eqb c "t" then
            rest' ← strip (String.list_ascii_of_string "rue") rest;
            Some (JBool true, rest')
          else if Ascii.eqb c "f" then
            rest' ← strip (String.list_ascii_of_string "alse") rest;
            Some (JBool false, rest')
          else if Ascii.eqb c dq then
            '(str, rest') ← read_string rest; Some (JString str, rest')
          else if Ascii.eqb c "[" then
            match starts "]" rest with
            | Some rest' => Some (JArray [], rest')
            | None =>
                '(items, rest') ← read_items fuel' rest;
                Some (JArray items, rest')
            end
          else if Ascii.eqb c "{" then
            match starts "}" rest with
            | Some rest' => Some (JObject [], rest')
            | None =>
                '(members, rest') ← read_members fuel' rest;
                Some (JObject members, rest')
            end
          else
            _ ← digit_value c;
            let '(n, rest') := read_digits 0 s in Some (JNumber n, rest')
      end
  end
with read_items (fuel : nat) (s : list ascii)
    : option (list json * list ascii) :=
  match fuel with
  | 0 => None
  | S fuel' =>
      '(item, rest) ← read_value fuel' s;
      match starts "," rest, starts "]" rest with
      | Some rest', _ =>
          '(items, rest'') ← read_items fuel' rest'; Some (item :: items, rest'')
      | None, Some rest' => Some ([item], rest')
      | None, None => None
      end
  end
with read_members (fuel : nat) (s : list ascii)
    : option (list (string * json) * list ascii) :=
  match fuel with
  | 0 => None
  | S fuel' =>
      rest ← starts dq s;
      '(key, rest) ← read_string rest;
      rest ← starts ":" rest;
      '(v, rest) ← read_value fuel' rest;
      match starts "," rest, starts "}" rest with
      | Some rest', _ =>
          '(members, rest'') ← read_members fuel' rest';
          Some ((key, v) :: members, rest'')
      | None, Some rest' => Some ([(key, v)], rest')
      | None, None => None
      end
  end.

(** The whole text must be one value. *)
Definition read (text : string) : option json :=
  let s := String.list_ascii_of_string text in
  match read_value (S (List.length s)) s with
  | Some (j, []) => Some j
  | _ => None
  end.

End SmallJSON.

(** * The css selector builder *)

Definition OneTimeInsideError : string :=
  "Element, id and pseudo-element should not occur more then one time inside the selector".

Definition FollowingOrderError : string :=
  "Selector parts should be arranged in the following order: element, id, class, attribute, pseudo-class, pseudo-element".

Module Builder.

(** The state of one [Builder] instance.  The six [...Exist] properties
    are never initialised by the constructor: they are [undefined]
    (falsy, here [false]) until a fragment method assigns [true]. *)
Record t : Type := mk {
  value1 : string;
  elementExist : bool;
  idExist : bool;
  classExist : bool;
  attrExist : bool;
  pseudoClassExist : bool;
  pseudoElementExist : bool
}.

Abbreviation heap := (gmap positive t) (only parsing).

Definition set_value1 (s : string) (b : t) : t :=
  mk s (elementExist b) (idExist b) (classExist b) (attrExist b)
     (pseudoClassExist b) (pseudoElementExist b).
Definition set_elementExist (x : bool) (b : t) : t :=
  mk (value1 b) x (idExist b) (classExist b) (attrExist b)
     (pseudoClassExist b) (pseudoElementExist b).
Definition set_idExist (x : bool) (b : t) : t :=
  mk (value1 b) (elementExist b) x (classExist b) (attrExist b)
     (pseudoClassExist b) (pseudoElementExist b).
Definition set_classExist (x : bool) (b : t) : t :=
  mk (value1 b) (elementExist b) (idExist b) x (attrExist b)
     (pseudoClassExist b) (pseudoElementExist b).
Definition set_attrExist (x : bool) (b : t) : t :=
  mk (value1 b) (elementExist b) (idExist b) (classExist b) x
     (pseudoClassExist b) (pseudoElementExist b).
Definition set_pseudoClassExist (x : bool) (b : t) : t :=
  mk (value1 b) (elementExist b) (idExist b) (classExist b) (attrExist b)
     x (pseudoElementExist b).
Definition set_pseudoElementExist (x : bool) (b : t) : t :=
  mk (value1 b) (elementExist b) (idExist b) (classExist b) (attrExist b)
     (pseudoClassExist b) x.

(** [this.field] *)
Definition get {A} (this : loc) (field : t → A) : M heap A :=
  λ h, match h !! this with
       | Some b => (Ret (field b), h)
       | None => (Throw (TypeError "Cannot read properties of undefined"), h)
       end.

(** [this.field = x], as the update [upd] of the object's state *)
Definition put (this : loc) (upd : t → t) : M heap unit :=
  λ h, match h !! this with
       | Some b => (Ret tt, <[this := upd b]> h)
       | None => (Throw (TypeError "Cannot set properties of undefined"), h)
       end.

(** [this.value1 += e]: the old text is read first, then [e] is
    evaluated, then the concatenation is stored. *)
Definition append_value1 (this : loc) (e : M heap string) : M heap unit :=
  (let! old := get this value1 in
   let! s := e in
   put this (set_value1 (old +:+ s)))%js.

(** [new Builder(...arguments)]: [args] is [None] for a call without
    arguments.  The object is allocated at a reference that denotes no
    object yet. *)
Definition constructor (args : option string) : M heap loc :=
  λ h, let this := fresh (dom h) in
       let value1 := "" in
       let value1 := match args with Some value => value | None => value1 end in
       (Ret this, <[this := mk value1 false false false false false false]> h).

Definition stringify (this : loc) : M heap string :=
  get this value1.

Definition element (this : loc) (value : string) : M heap loc :=
  (let! already := get this elementExist in
   if already then throw (Error OneTimeInsideError) else
   let! later := get this (λ b, idExist b || classExist b || attrExist b
                                || pseudoClassExist b || pseudoElementExist b) in
   if later then throw (Error FollowingOrderError) else
   put this (set_elementExist true) ;;!
   append_value1 this (ret value) ;;!
   ret this)%js.

Definition id (this : loc) (value : string) : M heap loc :=
  (let! already := get this idExist in
   if already then throw (Error OneTimeInsideError) else
   let! later := get this (λ b, classExist b || attrExist b
                                || pseudoClassExist b || pseudoElementExist b) in
   if later then throw (Error FollowingOrderError) else
   put this (set_idExist true) ;;!
   append_value1 this (ret "#") ;;!
   append_value1 this (ret value) ;;!
   ret this)%js.

Definition class (this : loc) (value : string) : M heap loc :=
  (let! later := get this (λ b, attrExist b || pseudoClassExist b
                                || pseudoElementExist b) in
   if later then throw (Error FollowingOrderError) else
   put this (set_classExist true) ;;!
   append_value1 this (ret ".") ;;!
   append_value1 this (ret value) ;;!
   ret this)%js.

Definition attr (this : loc) (value : string) : M heap loc :=
  (let! later := get this (λ b, pseudoClassExist b || pseudoElementExist b) in
   if later then throw (Error FollowingOrderError) else
   put this (set_attrExist true) ;;!
   append_value1 this (ret "[") ;;!
   append_value1 this (ret value) ;;!
   append_value1 this (ret "]") ;;!
   ret this)%js.

Definition pseudoClass (this : loc) (value : string) : M heap loc :=
  (let! later := get this pseudoElementExist in
   if later then throw (Error FollowingOrderError) else
   put this (set_pseudoClassExist true) ;;!
   append_value1 this (ret ":") ;;!
   append_value1 this (ret value) ;;!
   ret this)%js.

Definition pseudoElement (this : loc) (value : string) : M heap loc :=
  (let! already := get this pseudoElementExist in
   if already then throw (Error OneTimeInsideError) else
   put this (set_pseudoElementExist true) ;;!
   append_value1 this (ret "::") ;;!
   append_value1 this (ret value) ;;!
   ret this)%js.

(** An argument of [combine] is any object that exposes [stringify()]. *)
Class Selector (A : Type) : Type :=
  selector_stringify : A → M heap string.

#[global] Instance Selector_Builder : Selector positive := stringify.

Definition combine {A B} `{Selector A, Selector B}
    (this : loc) (selector1 : A) (combinator : string) (selector2 : B)
    : M heap loc :=
  (append_value1 this (selector_stringify selector1) ;;!
   append_value1 this (ret " ") ;;!
   append_value1 this (ret combinator) ;;!
   append_value1 this (ret " ") ;;!
   append_value1 this (selector_stringify selector2) ;;!
   ret this)%js.

End Builder.

(** An object literal [{ stringify() { return text; } }]: not a [Builder],
    yet acceptable to [combine]. *)
Record Literal : Type := { literal_text : string }.

#[global] Instance Selector_Literal : Builder.Selector Literal :=
  λ o, ret (literal_text o).

Module cssSelectorBuilder.

Definition element (value : string) : M Builder.heap loc :=
  (let! b := Builder.constructor None in Builder.element b value)%js.

Definition id (value : string) : M Builder.heap loc :=
  (let! b := Builder.constructor None in Builder.id b value)%js.

Definition class (value : string) : M Builder.heap loc :=
  (let! b := Builder.constructor None in Builder.class b value)%js.

Definition attr (value : string) : M Builder.heap loc :=
  (let! b := Builder.constructor None in Builder.attr b value)%js.

Definition pseudoClass (value : string) : M Builder.heap loc :=
  (let! b := Builder.constructor None in Builder.pseudoClass b value)%js.

Definition pseudoElement (value : string) : M Builder.heap loc :=
  (let! b := Builder.constructor None in Builder.pseudoElement b value)%js.

Definition combine {A B} `{Builder.Selector A, Builder.Selector B}
    (selector1 : A) (combinator : string) (selector2 : B)
    : M Builder.heap loc :=
  (let! b := Builder.constructor None in
   Builder.combine b selector1 combinator selector2)%js.

End cssSelectorBuilder.

(** ** Call sequences

    A fragment call is a category together with its argument; [call] and
    [entry] dispatch it to the method of that name on a builder and on the
    facade, and [chain] is a chain of method calls
    [b.m1(v1).m2(v2)...], each applied to what the previous one returned. *)

Inductive category : Type :=
  | CElement | CId | CClass | CAttr | CPseudoClass | CPseudoElement.

#[global] Instance category_eq_dec : EqDecision category.
Proof. solve_decision. Defined.

Definition fragment : Type := category * string.

Definition call (f : fragment) (this : loc) : M Builder.heap loc :=
  match fst f with
  | CElement => Builder.element this (snd f)
  | CId => Builder.id this (snd f)
  | CClass => Builder.class this (snd f)
  | CAttr => Builder.attr this (snd f)
  | CPseudoClass => Builder.pseudoClass this (snd f)
  | CPseudoElement => Builder.pseudoElement this (snd f)
  end.

Definition entry (f : fragment) : M Builder.heap loc :=
  match fst f with
  | CElement => cssSelectorBuilder.element (snd f)
  | CId => cssSelectorBuilder.id (snd f)
  | CClass => cssSelectorBuilder.class (snd f)
  | CAttr => cssSelectorBuilder.attr (snd f)
  | CPseudoClass => cssSelectorBuilder.pseudoClass (snd f)
  | CPseudoElement => cssSelectorBuilder.pseudoElement (snd f)
  end.

Fixpoint chain (fs : list fragment) (this : loc) : M Builder.heap loc :=
  match fs with
  | [] => ret this
  | f :: fs' => (let! next := call f this in chain fs' next)%js
  end.

(** [cssSelectorBuilder.m0(v0).m1(v1)...stringify()] *)
Definition build (f0 : fragment) (fs : list fragment) : M Builder.heap string :=
  (let! b := entry f0 in
   let! b := chain fs b in
   Builder.stringify b)%js.

(** The position of a category in
    element, id, class, attribute, pseudo-class, pseudo-element. *)
Definition rank (c : category) : nat :=
  match c with
  | CElement => 0 | CId => 1 | CClass => 2
  | CAttr => 3 | CPseudoClass => 4 | CPseudoElement => 5
  end.

(** Categories that may occur at most once. *)
Definition once (c : category) : bool :=
  match c with
  | CElement | CId | CPseudoElement => true
  | CClass | CAttr | CPseudoClass => false
  end.

(** The bookkeeping property of a category. *)
Definition flag (c : category) (b : Builder.t) : bool :=
  match c with
  | CElement => Builder.elementExist b
  | CId => Builder.idExist b
  | CClass => Builder.classExist b
  | CAttr => Builder.attrExist b
  | CPseudoClass => Builder.pseudoClassExist b
  | CPseudoElement => Builder.pseudoElementExist b
  end.

(** The text a fragment contributes, as the specification words it. *)
Definition formatted (f : fragment) : string :=
  match fst f with
  | CElement => snd f
  | CId => "#" +:+ snd f
  | CClass => "." +:+ snd f
  | CAttr => "[" +:+ snd f +:+ "]"
  | CPseudoClass => ":" +:+ snd f
  | CPseudoElement => "::" +:+ snd f
  end.

Fixpoint concat_formatted (fs : list fragment) : string :=
  match fs with
  | [] => ""
  | f :: fs' => formatted f +:+ concat_formatted fs'
  end.

Definition occurrences (c : category) (fs : list fragment) : nat :=
  length (filter (λ f, fst f = c) fs).

(** Every call is followed only by calls of the same or a later category. *)
Fixpoint weakly_ordered (fs : list fragment) : bool :=
  match fs with
  | [] => true
  | f :: fs' =>
      forallb (λ g, Nat.leb (rank (fst f)) (rank (fst g))) fs' && weakly_ordered fs'
  end.

(** A call sequence respects the weak category order, and element, id and
    pseudo-element occur at most once in it. *)
Definition respects_order (fs : list fragment) : bool :=
  weakly_ordered fs
  && Nat.leb (occurrences CElement fs) 1
  && Nat.leb (occurrences CId fs) 1
  && Nat.leb (occurrences CPseudoElement fs) 1.

Definition categories : list category :=
  [CElement; CId; CClass; CAttr; CPseudoClass; CPseudoElement].

(** Some fragment of a category strictly after [c] is recorded in [b]. *)
Definition later_present (c : category) (b : Builder.t) : bool :=
  existsb (λ c', Nat.ltb (rank c) (rank c') && flag c' b) categories.

Definition set_flag (c : category) (b : Builder.t) : Builder.t :=
  match c with
  | CElement => Builder.set_elementExist true b
  | CId => Builder.set_idExist true b
  | CClass => Builder.set_classExist true b
  | CAttr => Builder.set_attrExist true b
  | CPseudoClass => Builder.set_pseudoClassExist true b
  | CPseudoElement => Builder.set_pseudoElementExist true b
  end.

(** The state of a builder after a fragment call that succeeded. *)
Definition extended (f : fragment) (b : Builder.t) : Builder.t :=
  Builder.set_value1 (Builder.value1 b +:+ formatted f) (set_flag (fst f) b).

(** The state [new Builder()] creates. *)
Definition empty_builder : Builder.t :=
  Builder.mk "" false false false false false false.

(** The builder state after the calls [fs] have all succeeded. *)
Definition extended_by (fs : list fragment) (b : Builder.t) : Builder.t :=
  fold_left (λ b f, extended f b) fs b.

(** A builder admits a call sequence when nothing it has recorded lies
    after any of the calls, and it has recorded none of the once-only
    categories among them. *)
Definition admits (b : Builder.t) (fs : list fragment) : Prop :=
  (∀ f c, f ∈ fs → flag c b = true → rank c ≤ rank (fst f)) ∧
  (∀ f, f ∈ fs → once (fst f) = true → flag (fst f) b = false).

(** The two values the builder throws. *)
Definition DuplicateError : exn := Error OneTimeInsideError.
Definition OrderError : exn := Error FollowingOrderError.

(** The message of the duplicate error as the specification quotes it. *)
Definition DuplicateError_message_in_spec : string :=
  "Element, id and pseudo-element should not occur more than one time inside the selector".

(** [n] successive calls of [stringify()], with what each returned. *)
Fixpoint stringify_times (n : nat) (this : loc)
    : M Builder.heap (list string) :=
  match n with
  | 0 => ret []
  | S n' =>
      (let! s := Builder.stringify this in
       let! rest := stringify_times n' this in
       ret (s :: rest))%js
  end.

(** [a.stringify()] returns [s] and changes nothing, in the store [h] and
    in every store that still holds the objects of [h] as they are. *)
Definition reads {A} `{Builder.Selector A} (a : A)
    (h : gmap positive Builder.t) (s : string) : Prop :=
  ∀ h', h ⊆ h' → Builder.selector_stringify a h' = (Ret s, h').

(** A call of the facade: one of the six fragment entry points, or
    [combine] on two builders. *)
Inductive facade_call : Type :=
  | FFragment (f : fragment)
  | FCombine (selector1 : positive) (combinator : string) (selector2 : positive).

Definition facade (fc : facade_call) : M Builder.heap loc :=
  match fc with
  | FFragment f => entry f
  | FCombine selector1 combinator selector2 =>
      cssSelectorBuilder.combine selector1 combinator selector2
  end.

(** The arguments of the call denote objects of the store. *)
Definition arguments_exist (fc : facade_call) (h : gmap positive Builder.t)
    : Prop :=
  match fc with
  | FFragment _ => True
  | FCombine selector1 _ selector2 =>
      is_Some (h !! selector1) ∧ is_Some (h !! selector2)
  end.

(** ** One builder as a state machine

    What a fragment call does to the state of the builder it is called
    on, without the store: the new state, or the error thrown.  [run]
    makes the calls of a sequence in turn and stops at the first error. *)
Definition step (b : Builder.t) (f : fragment) : Builder.t + exn :=
  if once (fst f) && flag (fst f) b then inr DuplicateError
  else if later_present (fst f) b then inr OrderError
  else inl (extended f b).

Fixpoint run (b : Builder.t) (fs : list fragment) : Builder.t * option exn :=
  match fs with
  | [] => (b, None)
  | f :: fs' =>
      match step b f with
      | inl b' => run b' fs'
      | inr e => (b, Some e)
      end
  end.

(** [new Builder(value).m1(v1)...stringify()] *)
Definition build_on (value : string) (fs : list fragment)
    : M Builder.heap string :=
  (let! b := Builder.constructor (Some value) in
   let! b := chain fs b in
   Builder.stringify b)%js.

(** * Proofs *)

Lemma append_assoc (s1 s2 s3 : string) :
  (s1 +:+ s2) +:+ s3 = s1 +:+ (s2 +:+ s3).
Proof.
  induction s1 as [|a s1 IH]; [done |].
  cbv [String.append]; fold String.append. by f_equal.
Qed.

Lemma append_empty_r (s : string) : s +:+ "" = s.
Proof.
  induction s as [|a s IH]; [done |].
  cbv [String.append]; fold String.append. by f_equal.
Qed.

Ltac unfold_js :=
  unfold Builder.element, Builder.id, Builder.class, Builder.attr,
    Builder.pseudoClass, Builder.pseudoElement, Builder.stringify,
    Builder.append_value1, Builder.get, Builder.put, bind, ret, throw.

Ltac unfold_js_in H :=
  unfold Builder.element, Builder.id, Builder.class, Builder.attr,
    Builder.pseudoClass, Builder.pseudoElement, Builder.stringify,
    Builder.append_value1, Builder.get, Builder.put, bind, ret, throw in H.

(** ** One step of a computation *)

Lemma bind_eval {Σ A B} (m : M Σ A) (k : A → M Σ B) (h h' : Σ) (a : A) :
  m h = (Ret a, h') → bind m k h = k a h'.
Proof. unfold bind. by intros ->. Qed.

Lemma bind_throw {Σ A B} (m : M Σ A) (k : A → M Σ B) (h h' : Σ) (e : exn) :
  m h = (Throw e, h') → bind m k h = (Throw e, h').
Proof. unfold bind. by intros ->. Qed.

Section builder_steps.
Context (h : gmap positive Builder.t) (l : positive) (b : Builder.t).
Hypothesis Hl : h !! l = Some b.

Lemma get_eval {A} (field : Builder.t → A) :
  Builder.get l field h = (Ret (field b), h).
Proof using Hl. unfold Builder.get. by rewrite Hl. Qed.

Lemma put_eval (upd : Builder.t → Builder.t) :
  Builder.put l upd h = (Ret (), <[l := upd b]> h).
Proof using Hl. unfold Builder.put. by rewrite Hl. Qed.

(** [this.value1 += e] when evaluating [e] reads the store only. *)
Lemma append_eval (e : M (gmap positive Builder.t) string) (s : string) :
  e h = (Ret s, h) →
  Builder.append_value1 l e h =
    (Ret (), <[l := Builder.set_value1 (Builder.value1 b +:+ s) b]> h).
Proof using Hl.
  intros He. unfold Builder.append_value1.
  rewrite (bind_eval _ _ _ _ _ (get_eval Builder.value1)).
  rewrite (bind_eval _ _ _ _ _ He). apply put_eval.
Qed.
End builder_steps.

Ltac js_step :=
  erewrite bind_eval;
  [ | first [ eapply get_eval | eapply put_eval
            | eapply append_eval; [ | reflexivity ] ];
      first [ eassumption | apply lookup_insert_eq ] ];
  rewrite ?insert_insert_eq; cbv beta.

(** ** What each method does to the builder it is called on *)

Section method_eval.
Context (h : gmap positive Builder.t) (l : positive) (b : Builder.t).
Hypothesis Hl : h !! l = Some b.
Context (v : string).

Lemma stringify_eval : Builder.stringify l h = (Ret (Builder.value1 b), h).
Proof using Hl. by apply get_eval. Qed.

Lemma element_eval :
  Builder.element l v h =
    if Builder.elementExist b then (Throw (Error OneTimeInsideError), h)
    else if Builder.idExist b || Builder.classExist b || Builder.attrExist b
            || Builder.pseudoClassExist b || Builder.pseudoElementExist b
    then (Throw (Error FollowingOrderError), h)
    else (Ret l, <[l := Builder.set_value1 (Builder.value1 b +:+ v)
                          (Builder.set_elementExist true b)]> h).
Proof using Hl.
  unfold Builder.element. js_step.
  destruct (Builder.elementExist b); [done |]. js_step.
  destruct (_ || _); [done |]. by do 2 js_step.
Qed.

Lemma id_eval :
  Builder.id l v h =
    if Builder.idExist b then (Throw (Error OneTimeInsideError), h)
    else if Builder.classExist b || Builder.attrExist b
            || Builder.pseudoClassExist b || Builder.pseudoElementExist b
    then (Throw (Error FollowingOrderError), h)
    else (Ret l, <[l := Builder.set_value1 (Builder.value1 b +:+ "#" +:+ v)
                          (Builder.set_idExist true b)]> h).
Proof using Hl.
  unfold Builder.id. js_step.
  destruct (Builder.idExist b); [done |]. js_step.
  destruct (_ || _); [done |]. do 3 js_step.
  unfold Builder.set_value1; simpl. by rewrite append_assoc.
Qed.

Lemma class_eval :
  Builder.class l v h =
    if Builder.attrExist b || Builder.pseudoClassExist b
       || Builder.pseudoElementExist b
    then (Throw (Error FollowingOrderError), h)
    else (Ret l, <[l := Builder.set_value1 (Builder.value1 b +:+ "." +:+ v)
                          (Builder.set_classExist true b)]> h).
Proof using Hl.
  unfold Builder.class. js_step.
  destruct (_ || _); [done |]. do 3 js_step.
  unfold Builder.set_value1; simpl. by rewrite append_assoc.
Qed.

Lemma attr_eval :
  Builder.attr l v h =
    if Builder.pseudoClassExist b || Builder.pseudoElementExist b
    then (Throw (Error FollowingOrderError), h)
    else (Ret l, <[l := Builder.set_value1
                          (Builder.value1 b +:+ "[" +:+ v +:+ "]")
                          (Builder.set_attrExist true b)]> h).
Proof using Hl.
  unfold Builder.attr. js_step.
  destruct (_ || _); [done |]. do 4 js_step.
  unfold Builder.set_value1; simpl. by rewrite !append_assoc.
Qed.

Lemma pseudoClass_eval :
  Builder.pseudoClass l v h =
    if Builder.pseudoElementExist b
    then (Throw (Error FollowingOrderError), h)
    else (Ret l, <[l := Builder.set_value1 (Builder.value1 b +:+ ":" +:+ v)
                          (Builder.set_pseudoClassExist true b)]> h).
Proof using Hl.
  unfold Builder.pseudoClass. js_step.
  destruct (Builder.pseudoElementExist b); [done |]. do 3 js_step.
  unfold Builder.set_value1; simpl. by rewrite append_assoc.
Qed.

Lemma pseudoElement_eval :
  Builder.pseudoElement l v h =
    if Builder.pseudoElementExist b
    then (Throw (Error OneTimeInsideError), h)
    else (Ret l, <[l := Builder.set_value1 (Builder.value1 b +:+ "::" +:+ v)
                          (Builder.set_pseudoElementExist true b)]> h).
Proof using Hl.
  unfold Builder.pseudoElement. js_step.
  destruct (Builder.pseudoElementExist b); [done |]. do 3 js_step.
  unfold Builder.set_value1; simpl. by rewrite append_assoc.
Qed.
End method_eval.

(** The six methods at once, through [call]. *)
Lemma call_eval (f : fragment) (l : positive) (h : gmap positive Builder.t)
    (b : Builder.t) :
  h !! l = Some b →
  call f l h =
    if once (fst f) && flag (fst f) b
    then (Throw (Error OneTimeInsideError), h)
    else if later_present (fst f) b
    then (Throw (Error FollowingOrderError), h)
    else (Ret l, <[l := extended f b]> h).
Proof.
  intros Hl. destruct f as [c v]. unfold call.
  destruct c; cbn [fst snd];
    [ rewrite (element_eval _ _ _ Hl) | rewrite (id_eval _ _ _ Hl)
    | rewrite (class_eval _ _ _ Hl) | rewrite (attr_eval _ _ _ Hl)
    | rewrite (pseudoClass_eval _ _ _ Hl)
    | rewrite (pseudoElement_eval _ _ _ Hl) ];
    destruct b as [txt e i k a pc pe]; destruct e, i, k, a, pc, pe;
    reflexivity.
Qed.

(** ** Chains of fragment calls *)

Lemma later_present_false (c : category) (b : Builder.t) :
  (∀ c', flag c' b = true → rank c' ≤ rank c) → later_present c b = false.
Proof.
  intros Hle. destruct (later_present c b) eqn:E; [| done].
  apply existsb_exists in E as (c' & _ & Hc').
  apply andb_true_iff in Hc' as [Hlt Hflag].
  apply Nat.ltb_lt in Hlt. specialize (Hle c' Hflag). lia.
Qed.

Lemma later_present_true (c c' : category) (b : Builder.t) :
  rank c < rank c' → flag c' b = true → later_present c b = true.
Proof.
  intros Hlt Hflag. apply existsb_exists. exists c'. split.
  - destruct c'; simpl; tauto.
  - apply andb_true_iff. split; [by apply Nat.ltb_lt | done].
Qed.

Lemma flag_extended (c : category) (f : fragment) (b : Builder.t) :
  flag c (extended f b) = if decide (c = fst f) then true else flag c b.
Proof. destruct f as [c' v]. by destruct c, c'. Qed.

Lemma value1_extended (f : fragment) (b : Builder.t) :
  Builder.value1 (extended f b) = Builder.value1 b +:+ formatted f.
Proof. done. Qed.

Lemma occurrences_cons (c : category) (f : fragment) (fs : list fragment) :
  occurrences c (f :: fs) =
    (if decide (fst f = c) then 1 else 0) + occurrences c fs.
Proof.
  unfold occurrences. rewrite filter_cons. by destruct (decide (fst f = c)).
Qed.

Lemma value1_extended_by (fs : list fragment) (b : Builder.t) :
  Builder.value1 (extended_by fs b) = Builder.value1 b +:+ concat_formatted fs.
Proof.
  revert b. induction fs as [|f fs IH]; intros b; simpl.
  - by rewrite append_empty_r.
  - unfold extended_by in *. simpl. rewrite IH, value1_extended.
    by rewrite append_assoc.
Qed.

Lemma respects_order_cons (f : fragment) (fs : list fragment) :
  respects_order (f :: fs) = true →
  (∀ g, g ∈ fs → rank (fst f) ≤ rank (fst g)) ∧
  (once (fst f) = true → ∀ g, g ∈ fs → fst g ≠ fst f) ∧
  respects_order fs = true.
Proof.
  unfold respects_order. rewrite !andb_true_iff, !Nat.leb_le.
  rewrite !occurrences_cons. simpl weakly_ordered.
  rewrite andb_true_iff, forallb_forall.
  intros [[[[Hall Hsorted] He] Hi] Hp]. split; [| split].
  - intros g Hg. apply Nat.leb_le, Hall. by apply list_elem_of_In.
  - intros Honce g Hg Heq.
    assert (1 ≤ occurrences (fst f) fs) as Hocc.
    { unfold occurrences.
      assert (g ∈ filter (λ f0, fst f0 = fst f) fs) as Hin
        by (apply list_elem_of_filter; done).
      destruct (filter _ fs); [by apply not_elem_of_nil in Hin | simpl; lia]. }
    destruct (fst f); try discriminate;
      repeat case_decide; try congruence; lia.
  - repeat split; try done; repeat case_decide; lia.
Qed.

Lemma admits_extended (f : fragment) (fs : list fragment) (b : Builder.t) :
  admits b (f :: fs) → respects_order (f :: fs) = true →
  admits (extended f b) fs.
Proof.
  intros [Hle Hfresh] (Hord & Hnodup & _)%respects_order_cons. split.
  - intros g c Hg. rewrite flag_extended. case_decide as Hc.
    + intros _. subst c. by apply Hord.
    + apply Hle. by right.
  - intros g Hg Honce. rewrite flag_extended. case_decide as Hc.
    + exfalso. apply (Hnodup ltac:(by rewrite <- Hc) g Hg Hc).
    + apply Hfresh; [by right | done].
Qed.

Lemma chain_eval (fs : list fragment) (l : positive)
    (h : gmap positive Builder.t) (b : Builder.t) :
  h !! l = Some b → admits b fs → respects_order fs = true →
  chain fs l h = (Ret l, <[l := extended_by fs b]> h).
Proof.
  revert h b. induction fs as [|f fs IH]; intros h b Hl Hadm Hresp; simpl.
  - unfold ret. by rewrite insert_id.
  - pose proof (admits_extended _ _ _ Hadm Hresp) as Hadm'.
    apply respects_order_cons in Hresp as (_ & _ & Hresp').
    destruct Hadm as [Hle Hfresh].
    erewrite bind_eval; cycle 1.
    { rewrite (call_eval _ _ _ _ Hl).
      replace (once (fst f) && flag (fst f) b) with false; cycle 1.
      { destruct (once (fst f)) eqn:Honce; [| done]. simpl.
        symmetry. apply Hfresh; [by left | done]. }
      rewrite later_present_false; [done |].
      intros c' Hc'. apply (Hle f c'); [by left | done]. }
    rewrite (IH _ (extended f b)); [| apply lookup_insert_eq | done | done].
    by rewrite insert_insert_eq.
Qed.

Lemma admits_empty (fs : list fragment) : admits empty_builder fs.
Proof. split; [by intros f [] | by intros f _ _; destruct (fst f)]. Qed.

(** A facade entry point is its method called on a new, empty builder. *)
Lemma entry_eval (f : fragment) (h : gmap positive Builder.t) :
  entry f h = call f (fresh (dom h)) (<[fresh (dom h) := empty_builder]> h).
Proof. destruct f as [[] v]; reflexivity. Qed.

Lemma fresh_lookup (h : gmap positive Builder.t) : h !! fresh (dom h) = None.
Proof. apply not_elem_of_dom, is_fresh. Qed.

(** [C1] Every call sequence that starts at the facade and respects the
    weak category order element, id, class, attr, pseudoClass,
    pseudoElement (class, attr and pseudoClass repeatable, the other three
    at most once) succeeds, and [stringify()] then returns the
    concatenation, in call order, of the formatted text of each fragment,
    with nothing in between. *)
Theorem build_stringify_concat (f0 : fragment) (fs : list fragment)
    (h : gmap positive Builder.t) :
  respects_order (f0 :: fs) = true →
  result_of (build f0 fs) h = Ret (concat_formatted (f0 :: fs)).
Proof.
  intros Hresp. unfold result_of, build.
  set (l := fresh (dom h)). set (h0 := <[l := empty_builder]> h).
  assert (chain (f0 :: fs) l h0
          = (Ret l, <[l := extended_by (f0 :: fs) empty_builder]> h0)) as Hc.
  { apply chain_eval; [apply lookup_insert_eq | apply admits_empty | done]. }
  simpl chain in Hc. unfold bind in *. rewrite entry_eval. fold l h0.
  destruct (call f0 l h0) as [[l1|e] h1]; [| done].
  rewrite Hc. rewrite (stringify_eval _ _ _ (lookup_insert_eq _ _ _)).
  simpl. by rewrite value1_extended_by.
Qed.

Lemma build_stringify_concat_witness :
  respects_order
    [(CElement, "a"); (CAttr, "href$=" +:+ dquote +:+ ".png" +:+ dquote);
     (CPseudoClass, "focus")] = true ∧
  result_of
    (build (CElement, "a")
       [(CAttr, "href$=" +:+ dquote +:+ ".png" +:+ dquote);
        (CPseudoClass, "focus")]) ∅
  = Ret ("a[href$=" +:+ dquote +:+ ".png" +:+ dquote +:+ "]:focus").
Proof.
  split; [reflexivity |].
  apply (build_stringify_concat (CElement, "a")
           [(CAttr, "href$=" +:+ dquote +:+ ".png" +:+ dquote);
            (CPseudoClass, "focus")] ∅).
  reflexivity.
Defined.

(** ** The two errors *)

Lemma messages_differ : DuplicateError ≠ OrderError.
Proof. discriminate. Qed.

(** A once-only method called when its own category is recorded. *)
Lemma duplicate_call_eval (c : category) (v : string) (l : positive)
    (h : gmap positive Builder.t) (b : Builder.t) :
  h !! l = Some b → once c = true → flag c b = true →
  call (c, v) l h = (Throw DuplicateError, h).
Proof.
  intros Hl Honce Hflag. rewrite (call_eval _ _ _ _ Hl). simpl.
  by rewrite Honce, Hflag.
Qed.

(** [C2, as the code has it] Whenever element, id or pseudoElement is
    called on a builder that has already recorded that category, the
    thrown error carries exactly the message
    "Element, id and pseudo-element should not occur more then one time
    inside the selector". *)
Theorem duplicate_error_message (c : category) (v : string) (l : positive)
    (h : gmap positive Builder.t) (b : Builder.t) :
  h !! l = Some b → once c = true → flag c b = true →
  ∃ e, result_of (call (c, v) l) h = Throw e ∧
       message_of e =
         "Element, id and pseudo-element should not occur more then one time inside the selector".
Proof.
  intros Hl Honce Hflag. exists DuplicateError. unfold result_of.
  by rewrite (duplicate_call_eval _ _ _ _ _ Hl Honce Hflag).
Qed.

Lemma duplicate_error_message_witness :
  let h : gmap positive Builder.t :=
    store_after (let! b := cssSelectorBuilder.pseudoElement "after" in
                 ret b)%js ∅ in
  ∃ e, result_of (Builder.pseudoElement 1%positive "before") h = Throw e ∧
       message_of e =
         "Element, id and pseudo-element should not occur more then one time inside the selector".
Proof.
  intros h.
  apply (duplicate_error_message CPseudoElement "before" 1%positive h
           (Builder.mk "::after" false false false false false true));
    reflexivity.
Defined.

(** [C2, as stated, fails] [cssSelectorBuilder.element('table').element('div')]
    throws an error whose message is not the string the specification
    quotes. *)
Lemma duplicate_error_message_counterexample :
  ∃ e, result_of (let! b := cssSelectorBuilder.element "table" in
                  Builder.element b "div")%js ∅ = Throw e ∧
       message_of e ≠ DuplicateError_message_in_spec.
Proof. exists DuplicateError. split; [reflexivity | discriminate]. Qed.

(** [C3] Calling element, id or pseudoElement on a builder that has
    already recorded that category throws the duplicate error and changes
    nothing: the store after the call is the store before it, so the
    builder has the same text and the same properties, and [stringify()]
    returns the same string as before. *)
Theorem duplicate_call_leaves_builder (c : category) (v : string)
    (l : positive) (h : gmap positive Builder.t) (b : Builder.t) :
  h !! l = Some b → once c = true → flag c b = true →
  call (c, v) l h = (Throw DuplicateError, h) ∧
  store_after (call (c, v) l) h !! l = Some b ∧
  result_of (Builder.stringify l) (store_after (call (c, v) l) h)
    = result_of (Builder.stringify l) h.
Proof.
  intros Hl Honce Hflag. unfold store_after.
  by rewrite (duplicate_call_eval _ _ _ _ _ Hl Honce Hflag).
Qed.

Lemma duplicate_call_leaves_builder_witness :
  let b := Builder.mk "div#main" true true false false false false in
  let h : gmap positive Builder.t :=
    store_after (let! div := cssSelectorBuilder.element "div" in
                 Builder.id div "main")%js ∅ in
  Builder.id 1%positive "second" h = (Throw DuplicateError, h) ∧
  store_after (Builder.id 1%positive "second") h !! 1%positive = Some b ∧
  result_of (Builder.stringify 1%positive)
    (store_after (Builder.id 1%positive "second") h) = Ret "div#main".
Proof.
  intros b h.
  apply (duplicate_call_leaves_builder CId "second" 1%positive h b);
    reflexivity.
Defined.

(** [C4] Calling a fragment method on a builder that has recorded a
    fragment of a strictly later category, and not the method's own
    once-only category, throws the order error, whose message is exactly
    "Selector parts should be arranged in the following order: element,
    id, class, attribute, pseudo-class, pseudo-element"; the store, hence
    the builder's text and properties, is left as it was. *)
Theorem out_of_order_call_throws (f : fragment) (c' : category)
    (l : positive) (h : gmap positive Builder.t) (b : Builder.t) :
  h !! l = Some b →
  (once (fst f) = true → flag (fst f) b = false) →
  rank (fst f) < rank c' → flag c' b = true →
  call f l h =
    (Throw (Error "Selector parts should be arranged in the following order: element, id, class, attribute, pseudo-class, pseudo-element"),
     h) ∧
  store_after (call f l) h !! l = Some b.
Proof.
  intros Hl Hown Hlt Hflag.
  assert (call f l h = (Throw OrderError, h)) as Hcall.
  { rewrite (call_eval _ _ _ _ Hl).
    replace (once (fst f) && flag (fst f) b) with false
      by (destruct (once (fst f)); [by rewrite Hown | done]).
    by rewrite (later_present_true _ _ _ Hlt Hflag). }
  unfold store_after. by rewrite Hcall.
Qed.

Lemma out_of_order_call_throws_witness :
  let b := Builder.mk "a[href]" true false false true false false in
  let h : gmap positive Builder.t :=
    store_after (let! a := cssSelectorBuilder.element "a" in
                 Builder.attr a "href")%js ∅ in
  Builder.class 1%positive "big" h =
    (Throw (Error "Selector parts should be arranged in the following order: element, id, class, attribute, pseudo-class, pseudo-element"),
     h) ∧
  store_after (Builder.class 1%positive "big") h !! 1%positive = Some b.
Proof.
  intros b h.
  apply (out_of_order_call_throws (CClass, "big") CAttr 1%positive h b);
    [reflexivity | discriminate | simpl; lia | reflexivity].
Defined.

(** [C6] In element, id and pseudoElement the test for the method's own
    category comes first: on every builder that has recorded that
    category the call throws the duplicate error and not the order error,
    whatever later categories the builder has recorded as well. *)
Theorem duplicate_checked_before_order (c : category) (v : string)
    (l : positive) (h : gmap positive Builder.t) (b : Builder.t) :
  h !! l = Some b → once c = true → flag c b = true →
  result_of (call (c, v) l) h = Throw DuplicateError ∧
  result_of (call (c, v) l) h ≠ Throw OrderError.
Proof.
  intros Hl Honce Hflag. unfold result_of.
  rewrite (duplicate_call_eval _ _ _ _ _ Hl Honce Hflag). simpl.
  split; [done | discriminate].
Qed.

Lemma duplicate_checked_before_order_witness :
  let b := Builder.mk "div.c" true false true false false false in
  let h : gmap positive Builder.t :=
    store_after (let! div := cssSelectorBuilder.element "div" in
                 Builder.class div "c")%js ∅ in
  later_present CElement b = true ∧
  result_of (Builder.element 1%positive "div") h = Throw DuplicateError ∧
  result_of (Builder.element 1%positive "div") h ≠ Throw OrderError.
Proof.
  intros b h. split; [reflexivity |].
  apply (duplicate_checked_before_order CElement "div" 1%positive h b);
    reflexivity.
Defined.

(** [C7] [stringify()] only reads: any number of successive calls on a
    builder return the builder's text each time, the same string, and the
    store after them is the store before them. *)
Theorem stringify_repeatable (n : nat) (l : positive)
    (h : gmap positive Builder.t) (b : Builder.t) :
  h !! l = Some b →
  stringify_times n l h = (Ret (replicate n (Builder.value1 b)), h).
Proof.
  intros Hl. induction n as [|n IH]; simpl; [done |].
  rewrite (bind_eval _ _ _ _ _ (stringify_eval _ _ _ Hl)).
  by rewrite (bind_eval _ _ _ _ _ IH).
Qed.

Lemma stringify_repeatable_witness :
  let b := Builder.mk "#main.container" false true true false false false in
  let h : gmap positive Builder.t :=
    store_after (let! main := cssSelectorBuilder.id "main" in
                 Builder.class main "container")%js ∅ in
  stringify_times 3 1%positive h =
    (Ret ["#main.container"; "#main.container"; "#main.container"], h).
Proof.
  intros b h. apply (stringify_repeatable 3 1%positive h b). reflexivity.
Defined.

(** ** [combine] *)

Lemma reads_now {A} `{Builder.Selector A} (a : A)
    (h : gmap positive Builder.t) (s : string) :
  reads a h s → Builder.selector_stringify a h = (Ret s, h).
Proof. intros Hr. by apply Hr. Qed.

Lemma reads_mono {A} `{Builder.Selector A} (a : A)
    (h h' : gmap positive Builder.t) (s : string) :
  reads a h s → h ⊆ h' → reads a h' s.
Proof. intros Hr Hsub h'' Hsub'. apply Hr. by etrans. Qed.

(** A builder of the store reads as its text. *)
Lemma reads_builder (l : positive) (h : gmap positive Builder.t)
    (b : Builder.t) :
  h !! l = Some b → reads l h (Builder.value1 b).
Proof.
  intros Hl h' Hsub. apply stringify_eval. by eapply lookup_weaken.
Qed.

Lemma reads_literal (o : Literal) (h : gmap positive Builder.t) :
  reads o h (literal_text o).
Proof. by intros h' _. Qed.

(** The method [combine] on a builder [this], when neither argument's
    [stringify()] depends on the state of [this]. *)
Lemma combine_eval {A B} `{Builder.Selector A, Builder.Selector B}
    (this : positive) (a : A) (c : string) (b : B)
    (h : gmap positive Builder.t) (bt : Builder.t) (sa sb : string) :
  h !! this = Some bt →
  (∀ bt', Builder.selector_stringify a (<[this := bt']> h)
          = (Ret sa, <[this := bt']> h)) →
  (∀ bt', Builder.selector_stringify b (<[this := bt']> h)
          = (Ret sb, <[this := bt']> h)) →
  Builder.combine this a c b h =
    (Ret this,
     <[this := Builder.set_value1
                 (Builder.value1 bt +:+ sa +:+ " " +:+ c +:+ " " +:+ sb) bt]> h).
Proof.
  intros Hl Ha Hb. unfold Builder.combine.
  erewrite bind_eval; cycle 1.
  { apply (append_eval _ _ _ Hl _ sa).
    specialize (Ha bt). by rewrite (insert_id _ _ _ Hl) in Ha. }
  do 3 js_step.
  erewrite bind_eval; cycle 1.
  { eapply append_eval; [apply lookup_insert_eq | apply Hb]. }
  rewrite insert_insert_eq. unfold ret, Builder.set_value1; simpl.
  by rewrite !append_assoc.
Qed.

Lemma constructor_eval (h : gmap positive Builder.t) :
  Builder.constructor None h
  = (Ret (fresh (dom h)), <[fresh (dom h) := empty_builder]> h).
Proof. done. Qed.

(** [cssSelectorBuilder.combine] on arguments that read as [sa] and [sb]. *)
Lemma facade_combine_eval {A B} `{Builder.Selector A, Builder.Selector B}
    (a : A) (c : string) (b : B) (h : gmap positive Builder.t)
    (sa sb : string) :
  reads a h sa → reads b h sb →
  cssSelectorBuilder.combine a c b h =
    (Ret (fresh (dom h)),
     <[fresh (dom h) :=
         Builder.set_value1 (sa +:+ " " +:+ c +:+ " " +:+ sb) empty_builder]> h).
Proof.
  intros Ha Hb. unfold cssSelectorBuilder.combine.
  rewrite (bind_eval _ _ _ _ _ (constructor_eval h)).
  pose proof (fresh_lookup h) as Hfresh.
  rewrite (combine_eval _ a c b _ empty_builder sa sb).
  - by rewrite insert_insert_eq.
  - apply lookup_insert_eq.
  - intros bt'. rewrite insert_insert_eq. by apply Ha, insert_subseteq.
  - intros bt'. rewrite insert_insert_eq. by apply Hb, insert_subseteq.
Qed.

(** [C5] For selectors [a] and [b] (any objects whose [stringify()] reads
    [sa] and [sb]) and any combinator [c], [combine(a, c, b)] returns a
    new builder [r] with
    [r.stringify() = a.stringify() + ' ' + c + ' ' + b.stringify()];
    [r] is again such a selector and [a], [b] still read as before, so
    the equation applies to nested calls:
    [combine(a, c, combine(b, c2, d))] reads as the nested string. *)
Theorem combine_stringify {A B D}
    `{Builder.Selector A, Builder.Selector B, Builder.Selector D}
    (a : A) (c : string) (b : B) (c2 : string) (d : D)
    (h : gmap positive Builder.t) (sa sb sd : string) :
  reads a h sa → reads b h sb → reads d h sd →
  (∃ r h', cssSelectorBuilder.combine a c b h = (Ret r, h') ∧
           h ⊆ h' ∧
           Builder.stringify r h' = (Ret (sa +:+ " " +:+ c +:+ " " +:+ sb), h') ∧
           reads r h' (sa +:+ " " +:+ c +:+ " " +:+ sb)) ∧
  result_of
    (let! inner := cssSelectorBuilder.combine b c2 d in
     let! outer := cssSelectorBuilder.combine a c inner in
     Builder.stringify outer)%js h
  = Ret (sa +:+ " " +:+ c +:+ " " +:+ (sb +:+ " " +:+ c2 +:+ " " +:+ sd)).
Proof.
  intros Ha Hb Hd. split.
  - eexists _, _. split; [by apply facade_combine_eval |].
    assert (reads (fresh (dom h))
              (<[fresh (dom h) :=
                   Builder.set_value1 (sa +:+ " " +:+ c +:+ " " +:+ sb)
                     empty_builder]> h)
              (sa +:+ " " +:+ c +:+ " " +:+ sb)) as Hr
      by (apply (reads_builder _ _ (Builder.set_value1 _ empty_builder)),
            lookup_insert_eq).
    split; [apply insert_subseteq, fresh_lookup |].
    split; [by apply (reads_now _ _ _ Hr) | done].
  - unfold result_of.
    rewrite (bind_eval _ _ _ _ _ (facade_combine_eval b c2 d h sb sd Hb Hd)).
    set (inner := fresh (dom h)).
    set (h1 := <[inner := _]> h).
    assert (h ⊆ h1) as Hsub by apply insert_subseteq, fresh_lookup.
    assert (reads inner h1 (sb +:+ " " +:+ c2 +:+ " " +:+ sd)) as Hinner
      by (apply (reads_builder _ _ (Builder.set_value1 _ empty_builder)),
            lookup_insert_eq).
    rewrite (bind_eval _ _ _ _ _
               (facade_combine_eval a c inner h1 sa _
                  (reads_mono _ _ _ _ Ha Hsub) Hinner)).
    by rewrite (stringify_eval _ _ _ (lookup_insert_eq _ _ _)).
Qed.

Lemma combine_stringify_witness :
  let h : gmap positive Builder.t :=
    store_after (let! t := cssSelectorBuilder.element "table" in
                 Builder.id t "data")%js ∅ in
  let table := 1%positive in
  let div := {| literal_text := "div#main" |} in
  let td := {| literal_text := "td" |} in
  (∃ r h', cssSelectorBuilder.combine div "+" table h = (Ret r, h') ∧
           h ⊆ h' ∧
           Builder.stringify r h' = (Ret "div#main + table#data", h') ∧
           reads r h' "div#main + table#data") ∧
  result_of
    (let! inner := cssSelectorBuilder.combine table "~" td in
     let! outer := cssSelectorBuilder.combine div "+" inner in
     Builder.stringify outer)%js h
  = Ret "div#main + table#data ~ td".
Proof.
  intros h table div td.
  apply (combine_stringify div "+" table "~" td h
           "div#main" "table#data" "td").
  - apply (reads_literal div).
  - apply (reads_builder table h
             (Builder.mk "table#data" true true false false false false)).
    reflexivity.
  - apply (reads_literal td).
Defined.

(** ** Independence of builders *)

Lemma call_missing (f : fragment) (l : positive)
    (h : gmap positive Builder.t) :
  h !! l = None → store_after (call f l) h = h.
Proof.
  intros Hl. destruct f as [[] v]; unfold store_after, call; simpl;
    unfold_js; by rewrite Hl.
Qed.

(** A fragment method returns the builder it was called on, and touches
    no other object, whether it succeeds or throws. *)
Lemma call_frame (f : fragment) (l l' : positive)
    (h : gmap positive Builder.t) :
  l ≠ l' →
  store_after (call f l) h !! l' = h !! l' ∧
  ∀ r h', call f l h = (Ret r, h') → r = l.
Proof.
  intros Hne. destruct (h !! l) as [b|] eqn:Hl.
  - unfold store_after. rewrite (call_eval _ _ _ _ Hl).
    destruct (once (fst f) && flag (fst f) b); [by split |].
    destruct (later_present (fst f) b); [by split |]. simpl. split.
    + by apply lookup_insert_ne.
    + by intros r h' [= <- _].
  - split; [by rewrite (call_missing _ _ _ Hl) |].
    intros r h' Hcall. exfalso.
    destruct f as [[] v]; unfold call in Hcall; simpl in Hcall;
      unfold_js_in Hcall; by rewrite Hl in Hcall.
Qed.

Lemma chain_frame (fs : list fragment) (l l' : positive)
    (h : gmap positive Builder.t) :
  l ≠ l' → store_after (chain fs l) h !! l' = h !! l'.
Proof.
  intros Hne. revert h. induction fs as [|f fs IH]; intros h; [done |].
  destruct (call_frame f l l' h Hne) as [Hframe Hret].
  unfold store_after in *. simpl. unfold bind.
  destruct (call f l h) as [[r|e] h1] eqn:Hcall; simpl in *; [| done].
  rewrite (Hret r h1 eq_refl). by rewrite IH.
Qed.

(** Every fragment entry point of the facade succeeds. *)
Lemma entry_succeeds (f : fragment) (h : gmap positive Builder.t) :
  entry f h =
    (Ret (fresh (dom h)), <[fresh (dom h) := extended f empty_builder]> h).
Proof.
  rewrite entry_eval.
  rewrite (call_eval _ _ _ empty_builder) by apply lookup_insert_eq.
  replace (once (fst f) && flag (fst f) empty_builder) with false
    by (by destruct f as [[] v]).
  replace (later_present (fst f) empty_builder) with false
    by (by destruct f as [[] v]).
  by rewrite insert_insert_eq.
Qed.

Lemma facade_eval (fc : facade_call) (h : gmap positive Builder.t) :
  arguments_exist fc h →
  ∃ b2, facade fc h = (Ret (fresh (dom h)), <[fresh (dom h) := b2]> h).
Proof.
  destruct fc as [f | s1 c s2]; simpl.
  - intros _. eexists. apply entry_succeeds.
  - intros [[b1 H1] [b2 H2]]. eexists.
    apply (facade_combine_eval s1 c s2 h _ _
             (reads_builder _ _ _ H1) (reads_builder _ _ _ H2)).
Qed.

(** [C8] Each call of a facade entry point (element, id, class, attr,
    pseudoClass, pseudoElement, combine) returns a new builder: its
    reference denotes no object of the store before the call, so it
    differs from every builder obtained earlier, and the call leaves
    those as they were.  Afterwards fragment methods applied to either of
    two such builders leave the other's state, and what its [stringify()]
    returns, unchanged. *)
Theorem facade_builders_independent (fc : facade_call)
    (h : gmap positive Builder.t) (l1 : positive) (b1 : Builder.t) :
  h !! l1 = Some b1 → arguments_exist fc h →
  ∃ l2 h2 b2,
    facade fc h = (Ret l2, h2) ∧
    h !! l2 = None ∧ l2 ≠ l1 ∧
    h2 !! l1 = Some b1 ∧ h2 !! l2 = Some b2 ∧
    ∀ fs,
      store_after (chain fs l2) h2 !! l1 = Some b1 ∧
      result_of (Builder.stringify l1) (store_after (chain fs l2) h2)
        = Ret (Builder.value1 b1) ∧
      store_after (chain fs l1) h2 !! l2 = Some b2 ∧
      result_of (Builder.stringify l2) (store_after (chain fs l1) h2)
        = Ret (Builder.value1 b2).
Proof.
  intros Hl1 Hargs. destruct (facade_eval fc h Hargs) as [b2 Hfacade].
  pose proof (fresh_lookup h) as Hfresh.
  assert (fresh (dom h) ≠ l1) as Hne by congruence.
  exists (fresh (dom h)), (<[fresh (dom h) := b2]> h), b2.
  split; [done |]. split; [done |]. split; [done |].
  assert (<[fresh (dom h) := b2]> h !! l1 = Some b1) as Hl1'
    by by rewrite lookup_insert_ne.
  assert (<[fresh (dom h) := b2]> h !! fresh (dom h) = Some b2) as Hl2'
    by apply lookup_insert_eq.
  split; [done |]. split; [done |]. intros fs.
  assert (store_after (chain fs (fresh (dom h))) (<[fresh (dom h) := b2]> h)
            !! l1 = Some b1) as H1
    by by rewrite chain_frame.
  assert (store_after (chain fs l1) (<[fresh (dom h) := b2]> h)
            !! fresh (dom h) = Some b2) as H2
    by by rewrite chain_frame.
  unfold result_of.
  by rewrite (stringify_eval _ _ _ H1), (stringify_eval _ _ _ H2).
Qed.


Lemma facade_builders_independent_witness :
  let h : gmap positive Builder.t :=
    store_after (let! a := cssSelectorBuilder.element "div" in
                 cssSelectorBuilder.id "main")%js ∅ in
  let fc := FCombine 1%positive "+" 2%positive in
  let b1 := Builder.mk "div" true false false false false false in
  ∃ l2 h2 b2,
    facade fc h = (Ret l2, h2) ∧
    h !! l2 = None ∧ l2 ≠ 1%positive ∧
    h2 !! 1%positive = Some b1 ∧ h2 !! l2 = Some b2 ∧
    ∀ fs,
      store_after (chain fs l2) h2 !! 1%positive = Some b1 ∧
      result_of (Builder.stringify 1%positive) (store_after (chain fs l2) h2)
        = Ret (Builder.value1 b1) ∧
      store_after (chain fs 1%positive) h2 !! l2 = Some b2 ∧
      result_of (Builder.stringify l2) (store_after (chain fs 1%positive) h2)
        = Ret (Builder.value1 b2).
Proof.
  intros h fc b1.
  apply (facade_builders_independent fc h 1%positive b1).
  - reflexivity.
  - split; eexists; reflexivity.
Defined.

(** ** The examples of the source's documentation *)

Example id_class_class :
  result_of (build (CId, "main") [(CClass, "container"); (CClass, "editable")]) ∅
  = Ret "#main.container.editable".
Proof. reflexivity. Qed.

Example nested_combine :
  result_of
    (let! div := cssSelectorBuilder.element "div" in
     let! div := Builder.id div "main" in
     let! div := Builder.class div "container" in
     let! div := Builder.class div "draggable" in
     let! table := cssSelectorBuilder.element "table" in
     let! table := Builder.id table "data" in
     let! tr := cssSelectorBuilder.element "tr" in
     let! tr := Builder.pseudoClass tr "nth-of-type(even)" in
     let! td := cssSelectorBuilder.element "td" in
     let! td := Builder.pseudoClass td "nth-of-type(even)" in
     let! inner := cssSelectorBuilder.combine tr " " td in
     let! middle := cssSelectorBuilder.combine table "~" inner in
     let! outer := cssSelectorBuilder.combine div "+" middle in
     Builder.stringify outer)%js ∅
  = Ret "div#main.container.draggable + table#data ~ tr:nth-of-type(even)   td:nth-of-type(even)".
Proof. vm_compute. reflexivity. Qed.

Example second_id_throws :
  result_of
    (let! div := cssSelectorBuilder.element "div" in
     let! div := Builder.id div "main" in
     Builder.id div "second")%js ∅
  = Throw DuplicateError.
Proof. reflexivity. Qed.

Example class_after_attr_throws :
  result_of
    (let! a := cssSelectorBuilder.attr "href" in Builder.class a "big")%js ∅
  = Throw OrderError.
Proof. reflexivity. Qed.

Example element_after_class_throws :
  result_of
    (let! div := cssSelectorBuilder.element "div" in
     let! div := Builder.class div "c" in
     Builder.element div "div")%js ∅
  = Throw DuplicateError.
Proof. reflexivity. Qed.

(** On a builder that already has text, the method [combine] appends to
    that text; only the facade starts from the empty text. *)
Example combine_on_used_builder :
  result_of
    (let! a := cssSelectorBuilder.element "a" in
     let! b := cssSelectorBuilder.element "b" in
     let! r := Builder.combine a a ">" b in
     Builder.stringify r)%js ∅
  = Ret "aa > b".
Proof. vm_compute. reflexivity. Qed.

(** * Rectangle *)

Lemma getArea_assign (r : RectangleObject) (ops : list assignment) :
  getArea (fold_left assign ops r) = getArea r.
Proof.
  revert r. induction ops as [|a ops IH]; intros r; [done |].
  simpl. rewrite IH. by destruct a.
Qed.

(** [C9] For all numbers [w] and [h], [Rectangle(w, h)] returns an object
    with [width = w], [height = h] and [getArea() = w * h]; [getArea]
    uses the constructor's arguments, so after any reassignments of the
    object's [width] and [height] it still returns the original
    [w * h]. *)
Theorem Rectangle_getArea (w h : float) (ops : list assignment) :
  width (Rectangle w h) = w ∧
  height (Rectangle w h) = h ∧
  getArea (Rectangle w h) () = (w * h)%float ∧
  getArea (fold_left assign ops (Rectangle w h)) () = (w * h)%float.
Proof. by rewrite getArea_assign. Qed.

Example Rectangle_10_20 :
  let r := Rectangle 10 20 in
  width r = 10%float ∧ height r = 20%float ∧ getArea r () = 200%float ∧
  getArea (assign r (AssignWidth 3)) () = 200%float.
Proof. repeat split; reflexivity. Qed.

(** * The JSON helpers *)

Section JSON_round_trip.
Context (JSON_stringify_text : json → string).
Context (JSON_parse_text : string → option json).
Context (Object_prototype Array_prototype : positive).

Lemma JSON_parse_object (text : string) (j : json)
    (h : gmap positive object) :
  JSON_parse_text text = Some j → is_object j = true →
  ∃ builtin,
    JSON_parse JSON_parse_text Object_prototype Array_prototype text h
    = (Ret (VObject (fresh (dom h))),
       <[fresh (dom h) := mkObject (Some builtin) j]> h).
Proof.
  intros Htext Hobj. unfold JSON_parse. rewrite Htext.
  destruct j; try discriminate; eexists; reflexivity.
Qed.

(** [C10] For every JSON-serializable object [obj] and prototype [proto],
    [fromJSON(proto, getJSON(obj))] returns an object whose own
    enumerable properties are those of [obj] and whose prototype is
    [proto]; it is the object [JSON.parse] built, with its prototype
    changed in place, and not a copy of it. *)
Theorem fromJSON_getJSON_round_trip (h : gmap positive object)
    (l : positive) (obj : object) (proto : option positive) :
  h !! l = Some obj →
  is_object (own_properties obj) = true →
  JSON_serializable JSON_stringify_text JSON_parse_text (own_properties obj) →
  ∃ json r builtin,
    let parsed := <[r := mkObject (Some builtin) (own_properties obj)]> h in
    getJSON JSON_stringify_text (VObject l) h = (Ret json, h) ∧
    h !! r = None ∧
    JSON_parse JSON_parse_text Object_prototype Array_prototype json h
      = (Ret (VObject r), parsed) ∧
    fromJSON JSON_parse_text Object_prototype Array_prototype proto json h
      = (Ret (VObject r),
         <[r := mkObject proto (own_properties obj)]> parsed) ∧
    <[r := mkObject proto (own_properties obj)]> parsed !! l = Some obj.
Proof.
  intros Hl Hobj Hser.
  destruct (JSON_parse_object _ _ h Hser Hobj) as [builtin Hparse].
  pose proof (not_elem_of_dom_1 _ _ (is_fresh (dom h))) as Hfresh.
  exists (JSON_stringify_text (own_properties obj)), (fresh (dom h)), builtin.
  cbv zeta. split; [| split; [| split; [| split]]].
  - unfold getJSON, JSON_stringify. by rewrite Hl.
  - done.
  - done.
  - unfold fromJSON. rewrite (bind_eval _ _ _ _ _ Hparse).
    unfold Object_setPrototypeOf, bind, ret.
    by rewrite lookup_insert_eq.
  - rewrite !lookup_insert_ne by congruence. done.
Qed.

End JSON_round_trip.

Lemma fromJSON_getJSON_round_trip_witness :
  let circle := mkObject (Some 3%positive) (JObject [("radius", JNumber 10)]) in
  let h : gmap positive object :=
    {[ 1%positive := mkObject None (JObject []);
       2%positive := mkObject (Some 1%positive) (JArray []);
       3%positive := mkObject (Some 1%positive) (JObject []);
       4%positive := circle ]} in
  ∃ json r builtin,
    let parsed := <[r := mkObject (Some builtin) (own_properties circle)]> h in
    getJSON SmallJSON.print (VObject 4%positive) h = (Ret json, h) ∧
    h !! r = None ∧
    JSON_parse SmallJSON.read 1%positive 2%positive json h
      = (Ret (VObject r), parsed) ∧
    fromJSON SmallJSON.read 1%positive 2%positive (Some 3%positive) json h
      = (Ret (VObject r),
         <[r := mkObject (Some 3%positive) (own_properties circle)]> parsed) ∧
    <[r := mkObject (Some 3%positive) (own_properties circle)]> parsed
      !! 4%positive = Some circle.
Proof.
  intros circle h.
  apply (fromJSON_getJSON_round_trip SmallJSON.print SmallJSON.read
           1%positive 2%positive h 4%positive circle (Some 3%positive)).
  - reflexivity.
  - reflexivity.
  - vm_compute. reflexivity.
Defined.

(** * Further properties of the builder *)

(** ** A chain of calls on one builder, as the state machine *)

Lemma chain_run (fs : list fragment) (l : positive)
    (h : gmap positive Builder.t) (b : Builder.t) :
  h !! l = Some b →
  chain fs l h =
    (match snd (run b fs) with None => Ret l | Some e => Throw e end,
     <[l := fst (run b fs)]> h).
Proof.
  revert h b. induction fs as [|f fs IH]; intros h b Hl; simpl.
  - unfold ret. by rewrite insert_id.
  - unfold bind, step. rewrite (call_eval _ _ _ _ Hl).
    destruct (once (fst f) && flag (fst f) b); [by rewrite insert_id |].
    destruct (later_present (fst f) b); [by rewrite insert_id |].
    rewrite (IH _ (extended f b)) by apply lookup_insert_eq.
    by rewrite insert_insert_eq.
Qed.

Lemma call_missing_eval (f : fragment) (l : positive)
    (h : gmap positive Builder.t) :
  h !! l = None → ∃ e, call f l h = (Throw e, h).
Proof.
  intros Hl.
  destruct f as [[] v]; unfold call; simpl; unfold_js; rewrite Hl;
    by eexists.
Qed.

Lemma chain_missing (fs : list fragment) (l : positive)
    (h : gmap positive Builder.t) :
  h !! l = None → store_after (chain fs l) h = h.
Proof.
  intros Hl. destruct fs as [|f fs]; [done |].
  destruct (call_missing_eval f l h Hl) as [e He].
  unfold store_after. simpl. unfold bind. by rewrite He.
Qed.

Lemma later_present_false_inv (c c' : category) (b : Builder.t) :
  later_present c b = false → flag c' b = true → rank c' ≤ rank c.
Proof.
  intros Hlater Hflag. destruct (decide (rank c' ≤ rank c)); [done |].
  rewrite (later_present_true c c' b) in Hlater; [done | lia | done].
Qed.

Lemma occurrences_none (c : category) (fs : list fragment) :
  (∀ g, g ∈ fs → fst g ≠ c) → occurrences c fs = 0.
Proof.
  intros Hnone. unfold occurrences.
  destruct (filter (λ f, fst f = c) fs) as [|g gs] eqn:E; [done |].
  assert (g ∈ filter (λ f, fst f = c) fs) as Hin by (rewrite E; by left).
  apply list_elem_of_filter in Hin as [Hc Hg]. by destruct (Hnone g Hg).
Qed.

Lemma respects_order_cons_inv (f : fragment) (fs : list fragment) :
  (∀ g, g ∈ fs → rank (fst f) ≤ rank (fst g)) →
  (once (fst f) = true → ∀ g, g ∈ fs → fst g ≠ fst f) →
  respects_order fs = true →
  respects_order (f :: fs) = true.
Proof.
  unfold respects_order. rewrite !andb_true_iff, !Nat.leb_le.
  intros Hord Hnone [[[Hsorted He] Hi] Hp].
  rewrite !occurrences_cons. simpl weakly_ordered.
  rewrite andb_true_iff, forallb_forall.
  assert (∀ c, once c = true → fst f = c → occurrences c fs = 0) as Hzero.
  { intros c Honce <-. apply occurrences_none. by apply Hnone. }
  repeat split; try done.
  - intros g Hg. apply Nat.leb_le, Hord. by apply list_elem_of_In.
  - case_decide as Hc; [rewrite (Hzero CElement eq_refl Hc) |]; simpl; lia.
  - case_decide as Hc; [rewrite (Hzero CId eq_refl Hc) |]; simpl; lia.
  - case_decide as Hc; [rewrite (Hzero CPseudoElement eq_refl Hc) |];
      simpl; lia.
Qed.

Lemma flag_extended_mono (c : category) (f : fragment) (b : Builder.t) :
  flag c b = true → flag c (extended f b) = true.
Proof. intros Hflag. rewrite flag_extended. by case_decide. Qed.

(** The calls [fs] all succeed on a builder in state [b] exactly when [b]
    admits them and they respect the order. *)
Lemma run_ok_iff (fs : list fragment) (b : Builder.t) :
  snd (run b fs) = None ↔ admits b fs ∧ respects_order fs = true.
Proof.
  revert b. induction fs as [|f fs IH]; intros b; simpl.
  - split; [| done]. intros _. split; [| done].
    split; [intros f c Hf | intros f Hf]; by apply not_elem_of_nil in Hf.
  - unfold step.
    destruct (once (fst f) && flag (fst f) b) eqn:Hdup.
    { split; [done |]. intros [[_ Hfresh] _]. exfalso.
      apply andb_true_iff in Hdup as [Honce Hflag].
      rewrite (Hfresh f) in Hflag; [done | by left | done]. }
    destruct (later_present (fst f) b) eqn:Hlater.
    { split; [done |]. intros [[Hle _] _]. exfalso.
      rewrite later_present_false in Hlater; [done |].
      intros c' Hc'. apply (Hle f c'); [by left | done]. }
    rewrite IH. split.
    + intros [[Hle' Hfresh'] Hresp']. split; [split |].
      * intros g c [-> | Hg]%elem_of_cons Hflag.
        -- by apply (later_present_false_inv _ _ b).
        -- apply (Hle' g c Hg). by apply flag_extended_mono.
      * intros g [-> | Hg]%elem_of_cons Honce.
        -- by rewrite Honce in Hdup.
        -- destruct (flag (fst g) b) eqn:Hflag; [| done].
           pose proof (flag_extended_mono _ f _ Hflag) as Hset.
           by rewrite (Hfresh' g Hg Honce) in Hset.
      * apply respects_order_cons_inv; [| | done].
        -- intros g Hg. apply (Hle' g (fst f) Hg).
           rewrite flag_extended. by case_decide.
        -- intros Honce g Hg Heq.
           assert (flag (fst g) (extended f b) = false) as Hnot
             by (apply Hfresh'; [done | by rewrite Heq]).
           rewrite flag_extended in Hnot. by case_decide.
    + intros [Hadm Hresp]. split; [by apply admits_extended |].
      by apply respects_order_cons in Hresp as (_ & _ & Hresp').
Qed.

Lemma run_ok_state (fs : list fragment) (b : Builder.t) :
  snd (run b fs) = None → fst (run b fs) = extended_by fs b.
Proof.
  revert b. induction fs as [|f fs IH]; intros b; simpl; [done |].
  destruct (step b f) as [b'|e] eqn:Hstep; [| done].
  intros Hok. rewrite (IH _ Hok). unfold step in Hstep.
  destruct (_ && _); [done |]. destruct (later_present _ _); [done |].
  by injection Hstep as <-.
Qed.

Lemma run_error_kind (fs : list fragment) (b : Builder.t) (e : exn) :
  snd (run b fs) = Some e → e = DuplicateError ∨ e = OrderError.
Proof.
  revert b. induction fs as [|f fs IH]; intros b; simpl; [done |].
  unfold step. destruct (_ && _); [intros [= <-]; by left |].
  destruct (later_present _ _); [intros [= <-]; by right |]. apply IH.
Qed.

(** Along the calls no flag is cleared and the text only grows. *)
Lemma run_monotone (fs : list fragment) (b : Builder.t) :
  (∀ c, flag c b = true → flag c (fst (run b fs)) = true) ∧
  ∃ suffix, Builder.value1 (fst (run b fs)) = Builder.value1 b +:+ suffix.
Proof.
  revert b. induction fs as [|f fs IH]; intros b; simpl.
  - split; [done |]. exists "". by rewrite append_empty_r.
  - destruct (step b f) as [b'|e] eqn:Hstep; simpl.
    + assert (b' = extended f b) as ->.
      { unfold step in Hstep. destruct (_ && _); [done |].
        destruct (later_present _ _); [done |]. by injection Hstep as <-. }
      destruct (IH (extended f b)) as [Hflags [suffix Htext]]. split.
      * intros c Hc. by apply Hflags, flag_extended_mono.
      * exists (formatted f +:+ suffix).
        by rewrite Htext, value1_extended, append_assoc.
    + split; [done |]. exists "". by rewrite append_empty_r.
Qed.

Lemma admits_unflagged (b : Builder.t) (fs : list fragment) :
  (∀ c, flag c b = false) → admits b fs.
Proof.
  intros Hnone. split.
  - intros f c _ Hc. by rewrite Hnone in Hc.
  - intros f _ _. apply Hnone.
Qed.

Lemma build_eval (f0 : fragment) (fs : list fragment)
    (h : gmap positive Builder.t) :
  build f0 fs h =
    bind (chain (f0 :: fs) (fresh (dom h))) Builder.stringify
      (<[fresh (dom h) := empty_builder]> h).
Proof.
  unfold build. simpl chain. unfold bind at 1 2 3 4. rewrite entry_eval.
  by destruct (call f0 _ _) as [[r|e] h1].
Qed.

(** What a chain started at the facade returns, whatever the store. *)
Lemma build_result (f0 : fragment) (fs : list fragment)
    (h : gmap positive Builder.t) :
  result_of (build f0 fs) h =
    match snd (run empty_builder (f0 :: fs)) with
    | None => Ret (Builder.value1 (fst (run empty_builder (f0 :: fs))))
    | Some e => Throw e
    end.
Proof.
  unfold result_of. rewrite build_eval.
  unfold bind. rewrite (chain_run _ _ _ empty_builder)
    by apply lookup_insert_eq.
  destruct (snd (run empty_builder (f0 :: fs))); [done |].
  by rewrite (stringify_eval _ _ _ (lookup_insert_eq _ _ _)).
Qed.

(** ** Failure *)

(** A call that throws leaves the store as it was. *)
Lemma call_throw_store (f : fragment) (l : positive)
    (h h' : gmap positive Builder.t) (e : exn) :
  call f l h = (Throw e, h') → h' = h.
Proof.
  destruct (h !! l) as [b|] eqn:Hl.
  - rewrite (call_eval _ _ _ _ Hl).
    destruct (_ && _); [congruence |].
    destruct (later_present _ _); [congruence | done].
  - destruct (call_missing_eval f l h Hl) as [e' ->]. congruence.
Qed.

(** [X1] Each of the six fragment methods, on any builder in any state,
    either succeeds and returns the builder it was called on, or throws
    and leaves the whole store as it was: a failed call changes neither
    the text nor any flag. *)
Theorem call_returns_this_or_changes_nothing (f : fragment) (l : positive)
    (h : gmap positive Builder.t) :
  (∃ h', call f l h = (Ret l, h')) ∨ (∃ e, call f l h = (Throw e, h)).
Proof.
  destruct (h !! l) as [b|] eqn:Hl.
  - rewrite (call_eval _ _ _ _ Hl).
    destruct (_ && _); [right; by eexists |].
    destruct (later_present _ _); [right; by eexists |].
    left. by eexists.
  - right. by apply call_missing_eval.
Qed.

(** [X2] The first call that throws ends the chain: when the calls [pre]
    succeed and the next call [f] throws [e], the chain
    [pre], [f], [post] throws [e] whatever [post] is, and the store is the
    one the calls [pre] left, so the builder holds the text of the calls
    made before the failing one. *)
Theorem chain_stops_at_first_throw (pre post : list fragment) (f : fragment)
    (l r : positive) (h h1 h2 : gmap positive Builder.t) (e : exn) :
  chain pre l h = (Ret r, h1) →
  call f r h1 = (Throw e, h2) →
  chain (pre ++ f :: post) l h = (Throw e, h1).
Proof.
  intros Hpre Hcall.
  pose proof (call_throw_store _ _ _ _ _ Hcall) as ->.
  revert l h Hpre. induction pre as [|g pre IH]; intros l h Hpre; simpl in *.
  - injection Hpre as -> ->. unfold bind. by rewrite Hcall.
  - unfold bind in *. destruct (call g l h) as [[r'|e'] h']; [| done].
    by apply IH.
Qed.

Lemma chain_stops_at_first_throw_witness :
  let h : gmap positive Builder.t :=
    store_after (cssSelectorBuilder.element "div") ∅ in
  let h1 : gmap positive Builder.t :=
    {[ 1%positive := Builder.mk "div#main" true true false false false false ]} in
  chain ([(CId, "main")] ++ (CId, "second") :: [(CClass, "c")]) 1%positive h
  = (Throw DuplicateError, h1).
Proof.
  intros h h1.
  apply (chain_stops_at_first_throw [(CId, "main")] [(CClass, "c")]
           (CId, "second") 1%positive 1%positive h h1 h1 DuplicateError);
    reflexivity.
Defined.

(** ** What a chain keeps *)

(** [X3] A chain of fragment calls on a builder allocates nothing,
    removes nothing and touches no other object, whether it succeeds or
    throws: the store has the same references as before, and every other
    reference denotes what it denoted. *)
Theorem chain_touches_only_its_builder (fs : list fragment) (l : positive)
    (h : gmap positive Builder.t) :
  dom (store_after (chain fs l) h) = dom h ∧
  ∀ l', l' ≠ l → store_after (chain fs l) h !! l' = h !! l'.
Proof.
  destruct (h !! l) as [b|] eqn:Hl.
  - unfold store_after. rewrite (chain_run _ _ _ _ Hl). simpl. split.
    + rewrite dom_insert_L.
      assert (l ∈ dom h) as Hin by (apply elem_of_dom; eauto).
      apply subseteq_union_1_L. by apply singleton_subseteq_l.
    + intros l' Hne. by rewrite lookup_insert_ne.
  - by rewrite (chain_missing _ _ _ Hl).
Qed.

(** [X4] Along any chain of fragment calls on a builder, succeeding or
    not, no bookkeeping flag that was set is cleared, and the text only
    grows at its end: the text before the chain is a prefix of the text
    after it. *)
Theorem chain_keeps_flags_and_prefix (fs : list fragment) (l : positive)
    (h : gmap positive Builder.t) (b : Builder.t) :
  h !! l = Some b →
  ∃ b' suffix,
    store_after (chain fs l) h !! l = Some b' ∧
    (∀ c, flag c b = true → flag c b' = true) ∧
    Builder.value1 b' = Builder.value1 b +:+ suffix.
Proof.
  intros Hl. destruct (run_monotone fs b) as [Hflags [suffix Htext]].
  exists (fst (run b fs)), suffix. unfold store_after.
  rewrite (chain_run _ _ _ _ Hl). simpl.
  by rewrite lookup_insert_eq.
Qed.

Lemma chain_keeps_flags_and_prefix_witness :
  let b := Builder.mk "div.c" true false true false false false in
  let h : gmap positive Builder.t :=
    store_after (let! div := cssSelectorBuilder.element "div" in
                 Builder.class div "c")%js ∅ in
  let fs := [(CAttr, "x"); (CId, "late"); (CPseudoClass, "hover")] in
  ∃ b' suffix,
    store_after (chain fs 1%positive) h !! 1%positive = Some b' ∧
    (∀ c, flag c b = true → flag c b' = true) ∧
    Builder.value1 b' = "div.c" +:+ suffix.
Proof.
  intros b h fs.
  apply (chain_keeps_flags_and_prefix fs 1%positive h b). reflexivity.
Defined.

(** ** Which chains succeed *)

(** [X5] A chain started at a facade entry point succeeds exactly when
    its calls respect the category order with element, id and
    pseudoElement at most once; then [stringify()] returns the
    concatenated fragments.  Every other chain throws, and what it throws
    is the duplicate error or the order error, never anything else. *)
Theorem build_succeeds_iff_respects_order (f0 : fragment)
    (fs : list fragment) (h : gmap positive Builder.t) :
  (respects_order (f0 :: fs) = true ∧
   result_of (build f0 fs) h = Ret (concat_formatted (f0 :: fs))) ∨
  (respects_order (f0 :: fs) = false ∧
   (result_of (build f0 fs) h = Throw DuplicateError ∨
    result_of (build f0 fs) h = Throw OrderError)).
Proof.
  rewrite build_result.
  destruct (snd (run empty_builder (f0 :: fs))) as [e|] eqn:Hrun.
  - right. split.
    + destruct (respects_order (f0 :: fs)) eqn:Hresp; [| done].
      assert (snd (run empty_builder (f0 :: fs)) = None) as Hok
        by (apply run_ok_iff; split; [apply admits_empty | done]).
      congruence.
    + destruct (run_error_kind _ _ _ Hrun) as [-> | ->]; [by left | by right].
  - left. split; [by apply run_ok_iff in Hrun as [_ Hresp] |].
    by rewrite (run_ok_state _ _ Hrun), value1_extended_by.
Qed.

(** [X6] The facade keeps nothing between calls: what a chain started at
    a facade entry point returns or throws is the same in every store,
    whatever was built before. *)
Theorem build_independent_of_store (f0 : fragment) (fs : list fragment)
    (h1 h2 : gmap positive Builder.t) :
  result_of (build f0 fs) h1 = result_of (build f0 fs) h2.
Proof. by rewrite !build_result. Qed.

(** ** The constructor with an argument *)

(** [X7] [new Builder(value)] starts from the text [value] with no flag
    set: every chain that respects the order succeeds on it, whatever
    [value] contains, and [stringify()] returns [value] followed by the
    fragments. *)
Theorem build_on_stringify (value : string) (fs : list fragment)
    (h : gmap positive Builder.t) :
  respects_order fs = true →
  result_of (build_on value fs) h = Ret (value +:+ concat_formatted fs).
Proof.
  intros Hresp. unfold result_of, build_on, bind. simpl.
  rewrite (chain_eval fs _ _
             (Builder.mk value false false false false false false));
    [| apply lookup_insert_eq | by apply admits_unflagged; intros [] | done].
  rewrite (stringify_eval _ _ _ (lookup_insert_eq _ _ _)). simpl.
  by rewrite value1_extended_by.
Qed.

Lemma build_on_stringify_witness :
  result_of (build_on "ul > li" [(CClass, "item"); (CPseudoClass, "hover")]) ∅
  = Ret "ul > li.item:hover".
Proof.
  apply (build_on_stringify "ul > li"
           [(CClass, "item"); (CPseudoClass, "hover")] ∅).
  reflexivity.
Defined.

(** ** More on [combine] *)

(** [X8] [combine] sets no flag: the builder the facade's [combine]
    returns accepts every chain of fragment calls that respects the
    order, element and id included, and the fragments are appended
    directly after the text of the second selector. *)
Theorem combine_then_fragments {A B}
    `{Builder.Selector A, Builder.Selector B}
    (a : A) (c : string) (b : B) (fs : list fragment)
    (h : gmap positive Builder.t) (sa sb : string) :
  reads a h sa → reads b h sb → respects_order fs = true →
  result_of
    (let! r := cssSelectorBuilder.combine a c b in
     let! r := chain fs r in
     Builder.stringify r)%js h
  = Ret (sa +:+ " " +:+ c +:+ " " +:+ sb +:+ concat_formatted fs).
Proof.
  intros Ha Hb Hresp. unfold result_of.
  rewrite (bind_eval _ _ _ _ _ (facade_combine_eval a c b h sa sb Ha Hb)).
  erewrite bind_eval; cycle 1.
  { apply chain_eval;
      [apply lookup_insert_eq | by apply admits_unflagged; intros [] | done]. }
  rewrite (stringify_eval _ _ _ (lookup_insert_eq _ _ _)). simpl.
  rewrite value1_extended_by. simpl. by rewrite !append_assoc.
Qed.

Lemma combine_then_fragments_witness :
  result_of
    (let! r := cssSelectorBuilder.combine
                 {| literal_text := "ul" |} ">" {| literal_text := "li" |} in
     let! r := chain [(CElement, "a"); (CId, "x")] r in
     Builder.stringify r)%js ∅
  = Ret "ul > lia#x".
Proof.
  apply (combine_then_fragments {| literal_text := "ul" |} ">"
           {| literal_text := "li" |} [(CElement, "a"); (CId, "x")] ∅
           "ul" "li").
  - apply reads_literal.
  - apply reads_literal.
  - reflexivity.
Defined.

(** [X9] The method [combine] called on a builder that is already in use
    checks nothing: whatever flags the builder has it does not throw, it
    appends the two texts and the combinator after the builder's own text
    and leaves every flag as it was. *)
Theorem combine_appends_and_keeps_flags (this a b : positive) (c : string)
    (h : gmap positive Builder.t) (bt ba bb : Builder.t) :
  h !! this = Some bt → h !! a = Some ba → h !! b = Some bb →
  a ≠ this → b ≠ this →
  ∃ bt',
    Builder.combine this a c b h = (Ret this, <[this := bt']> h) ∧
    Builder.value1 bt' =
      Builder.value1 bt +:+ Builder.value1 ba +:+ " " +:+ c +:+ " "
        +:+ Builder.value1 bb ∧
    ∀ c', flag c' bt' = flag c' bt.
Proof.
  intros Hthis Ha Hb Hane Hbne. eexists. split; [| split].
  - apply (combine_eval this a c b h bt (Builder.value1 ba)
             (Builder.value1 bb) Hthis).
    + intros bt'. apply stringify_eval. by rewrite lookup_insert_ne.
    + intros bt'. apply stringify_eval. by rewrite lookup_insert_ne.
  - done.
  - by intros [].
Qed.

Lemma combine_appends_and_keeps_flags_witness :
  let h : gmap positive Builder.t :=
    store_after (let! p := cssSelectorBuilder.pseudoElement "after" in
                 let! a := cssSelectorBuilder.element "a" in
                 cssSelectorBuilder.element "b")%js ∅ in
  let bt := Builder.mk "::after" false false false false false true in
  ∃ bt',
    Builder.combine 1%positive 2%positive "+" 3%positive h
      = (Ret 1%positive, <[1%positive := bt']> h) ∧
    Builder.value1 bt' = "::after" +:+ "a" +:+ " " +:+ "+" +:+ " " +:+ "b" ∧
    ∀ c', flag c' bt' = flag c' bt.
Proof.
  intros h bt.
  apply (combine_appends_and_keeps_flags 1%positive 2%positive 3%positive
           "+" h bt
           (Builder.mk "a" true false false false false false)
           (Builder.mk "b" true false false false false false));
    (reflexivity || discriminate).
Defined.

(** [X10] A builder combined with itself: [b.combine(b, c, b)] reads the
    builder's text each time it is needed, so the second [stringify()]
    sees what the call has appended so far.  With [v] the text before the
    call and [w = v + v + ' ' + c + ' '], the text after it is [w + w]. *)
Theorem combine_with_itself (this : positive) (c : string)
    (h : gmap positive Builder.t) (bt : Builder.t) :
  h !! this = Some bt →
  let v := Builder.value1 bt in
  let w := v +:+ v +:+ " " +:+ c +:+ " " in
  Builder.combine this this c this h =
    (Ret this, <[this := Builder.set_value1 (w +:+ w) bt]> h).
Proof.
  intros Hthis v w. unfold Builder.combine.
  erewrite bind_eval; cycle 1.
  { eapply append_eval; [done | by apply stringify_eval]. }
  do 3 js_step.
  erewrite bind_eval; cycle 1.
  { eapply append_eval; [apply lookup_insert_eq |].
    apply stringify_eval, lookup_insert_eq. }
  rewrite insert_insert_eq. unfold ret, Builder.set_value1; simpl.
  subst v w. by rewrite !append_assoc.
Qed.

Lemma combine_with_itself_witness :
  let h : gmap positive Builder.t :=
    store_after (cssSelectorBuilder.element "p") ∅ in
  let bt := Builder.mk "p" true false false false false false in
  Builder.combine 1%positive 1%positive "~" 1%positive h =
    (Ret 1%positive,
     <[1%positive := Builder.set_value1 ("pp ~ " +:+ "pp ~ ") bt]> h).
Proof.
  intros h bt.
  apply (combine_with_itself 1%positive "~" h bt). reflexivity.
Defined.

(** * Further properties of the JSON helpers *)

Section JSON_more.
Context (JSON_stringify_text : json → string).
Context (JSON_parse_text : string → option json).
Context (Object_prototype Array_prototype : positive).

Lemma fresh_object_lookup (h : gmap positive object) :
  h !! fresh (dom h) = None.
Proof. apply not_elem_of_dom, is_fresh. Qed.



(** [X13] What [fromJSON] does with each kind of text.  Text that is not
    JSON: it throws the [SyntaxError] of [JSON.parse].  The text of
    [null]: it throws a [TypeError], since [Object.setPrototypeOf] does
    not accept [null].  The text of a boolean, a number or a string: it
    returns that primitive and [proto] is ignored.  In these three cases
    the store is unchanged.  The text of an object or an array: it
    returns one new object with those properties and prototype
    [proto]. *)
Theorem fromJSON_by_kind_of_text (proto : option positive) (text : string)
    (h : gmap positive object) :
  let call :=
    fromJSON JSON_parse_text Object_prototype Array_prototype proto text h in
  match JSON_parse_text text with
  | None => ∃ m, call = (Throw (SyntaxError m), h)
  | Some JNull => ∃ m, call = (Throw (TypeError m), h)
  | Some j =>
      if is_object j
      then ∃ r, h !! r = None ∧
                call = (Ret (VObject r), <[r := mkObject proto j]> h)
      else call = (Ret (VPrimitive j), h)
  end.
Proof.
  pose proof (fresh_object_lookup h) as Hfresh.
  unfold fromJSON, JSON_parse, Object_setPrototypeOf, bind, ret, throw.
  destruct (JSON_parse_text text) as [j|]; [| by eexists].
  destruct j as [| bv | n | s | items | members]; simpl;
    try done; try (by eexists).
  - exists (fresh (dom h)). split; [done |].
    rewrite lookup_insert_eq. simpl. by rewrite insert_insert_eq.
  - exists (fresh (dom h)). split; [done |].
    rewrite lookup_insert_eq. simpl. by rewrite insert_insert_eq.
Qed.

End JSON_more.

